(** * Call-hierarchy tree adapter (callHierarchyTree.ts)

    A shallow embedding of the tree model of the call-hierarchy explorer:
    the [Call] node with its comparator, the asynchronous [DataSource],
    the [Sorter] and the recursive [IdentityProvider].

    Conventions of the embedding.
    - A [Promise] is represented by its settled state; [await] is the bind
      of the corresponding error monad, so a rejection of the awaited
      promise becomes the rejection of the enclosing [async] function, and
      so does an error thrown while its body is evaluated.
    - The union type [CallHierarchyModel | Call] that [getChildren]
      dispatches on with [instanceof] is the sum type [TreeElement].
    - What callHierarchyTree.ts uses without defining it (the URI class,
      the string comparator, the range comparator, [JSON.stringify], the
      run-time values of the direction enum) is the [Context] of the
      sections that use it. *)

From Stdlib Require Import ZArith List String Ascii Bool Lia.
From Stdlib Require Import DecimalString DecimalZ DecimalPos.
Import ListNotations.

Set Implicit Arguments.
Local Open Scope Z_scope.

(* ================================================================= *)
(** ** Data model *)

(** Modelled from the spec: the interface [IRange] is declared in
    ./common/range, which is not among the sources.  The spec describes a
    source range with a start position made of a row and a column; the end
    position completes the range. *)
Record IRange : Type := mkRange {
  startLineNumber : Z;
  startColumn : Z;
  endLineNumber : Z;
  endColumn : Z
}.

(** [export interface Location { uri: URI; range: IRange }] *)
Module Location.
Record t (URI : Type) : Type := mk {
  uri : URI;
  range : IRange
}.
Arguments mk {URI} _ _.
Arguments uri {URI} _.
Arguments range {URI} _.
End Location.
Abbreviation Location := Location.t.

(** Modelled from the spec: [CallHierarchyItem] is declared in
    ./callHierarchy, which is not among the sources.  It is an opaque symbol
    descriptor with a resource identifier and a source range; the renderer
    additionally reads [name] and [detail]. *)
Module CallHierarchyItem.
Record t (URI : Type) : Type := mk {
  uri : URI;
  range : IRange;
  name : string;
  detail : option string
}.
Arguments mk {URI} _ _ _ _.
Arguments uri {URI} _.
Arguments range {URI} _.
Arguments name {URI} _.
Arguments detail {URI} _.
End CallHierarchyItem.
Abbreviation CallHierarchyItem := CallHierarchyItem.t.

(** The direction enum; the source names [CallsFrom] and leaves the other
    member to the [else] branch, the spec names it [CallsTo]. *)
Inductive CallHierarchyDirection : Type :=
  | CallsTo
  | CallsFrom.

Definition CallHierarchyDirection_eqb (d1 d2 : CallHierarchyDirection) : bool :=
  match d1, d2 with
  | CallsTo, CallsTo | CallsFrom, CallsFrom => true
  | _, _ => false
  end.

(** Modelled from the spec: the tokens that the two resolutions of the model
    take as their second argument, a non-cancelling one and a cancelling
    one.  The type is declared in base/common/cancellation, which is not
    among the sources. *)
Module CancellationToken.
Inductive t : Type := NonCancelling | Cancelling.
End CancellationToken.
Abbreviation CancellationToken := CancellationToken.t.

(** The errors that the runtime throws by itself in this file: reading an
    identifier that nothing binds. *)
Inductive RuntimeError : Type :=
  | ReferenceError (identifier : string).

(** *** Promises and [await] *)

Module Promise.
Inductive t (Err A : Type) : Type :=
  | Fulfilled (value : A)
  | Rejected (reason : Err)
  | Thrown (error : RuntimeError).
Arguments Fulfilled {Err A} _.
Arguments Rejected {Err A} _.
Arguments Thrown {Err A} _.

Definition await {Err A B : Type} (p : t Err A) (k : A -> t Err B) : t Err B :=
  match p with
  | Fulfilled a => k a
  | Rejected e => Rejected e
  | Thrown e => Thrown e
  end.
End Promise.
Abbreviation Promise := Promise.t.
Notation "'let_await' x ':=' p 'in' k" :=
  (Promise.await p (fun x => k))
  (at level 10, x name, p at level 100, k at level 200, only parsing).

(** Results of the external resolution: [{ to, fromRanges }] and
    [{ from, fromRanges }]. *)
Module OutgoingCall.
Record t (URI : Type) : Type := mk {
  to : CallHierarchyItem URI;
  fromRanges : list IRange
}.
Arguments mk {URI} _ _.
Arguments to {URI} _.
Arguments fromRanges {URI} _.
End OutgoingCall.
Abbreviation OutgoingCall := OutgoingCall.t.

Module IncomingCall.
Record t (URI : Type) : Type := mk {
  from : CallHierarchyItem URI;
  fromRanges : list IRange
}.
Arguments mk {URI} _ _.
Arguments from {URI} _.
Arguments fromRanges {URI} _.
End IncomingCall.
Abbreviation IncomingCall := IncomingCall.t.

Section DataModel.
Context {URI Err : Type}.

(** Modelled from the spec: the class [CallHierarchyModel] is declared in
    ./callHierarchy, which is not among the sources.  It exposes the root
    items and the two asynchronous resolutions. *)
Record CallHierarchyModel : Type := mkModel {
  roots : list (CallHierarchyItem URI);
  resolveOutgoingCalls :
    CallHierarchyItem URI -> CancellationToken -> Promise Err (list (OutgoingCall URI));
  resolveIncomingCalls :
    CallHierarchyItem URI -> CancellationToken -> Promise Err (list (IncomingCall URI))
}.

(** [class Call]: the four read-only constructor fields. *)
#[warnings="-register-all"] Inductive Call : Type := mkCall {
  item : CallHierarchyItem URI;
  locations : option (list (Location URI));
  model : CallHierarchyModel;
  parent : option Call
}.

(** [element: CallHierarchyModel | Call] *)
Inductive TreeElement : Type :=
  | OfModel (m : CallHierarchyModel)
  | OfCall (c : Call).

(** Induction along the parent chain. *)
Fixpoint Call_parent_ind (P : Call -> Prop)
    (Hroot : forall i l m, P (mkCall i l m None))
    (Hchild : forall i l m p, P p -> P (mkCall i l m (Some p)))
    (c : Call) {struct c} : P c :=
  match c with
  | mkCall i l m None => Hroot i l m
  | mkCall i l m (Some p) =>
      Hchild i l m p (Call_parent_ind P Hroot Hchild p)
  end.

(** The node's own identity and the identities along its ancestor chain,
    the node first and the root last. *)
Definition identity (c : Call) : URI * IRange :=
  (CallHierarchyItem.uri (item c), CallHierarchyItem.range (item c)).

Fixpoint chain (c : Call) : list (URI * IRange) :=
  identity c ::
  match parent c with
  | Some p => chain p
  | None => []
  end.
End DataModel.

Arguments CallHierarchyModel : clear implicits.
Arguments Call : clear implicits.
Arguments TreeElement : clear implicits.

(* ================================================================= *)
(** ** [Call.compare] and [Sorter] *)

Module Call.
Section Compare.
Context {URI Err : Type}.
(** [uri.toString()], [compare] of ./common/strings and
    [Range.compareRangesUsingStarts] of ./common/range. *)
Variable toString : URI -> string.
Variable compare_strings : string -> string -> Z.
Variable compareRangesUsingStarts : IRange -> IRange -> Z.

(** [static compare(a, b)] *)
Definition compare (a b : Call URI Err) : Z :=
  let res :=
    compare_strings (toString (CallHierarchyItem.uri (item a)))
                    (toString (CallHierarchyItem.uri (item b))) in
  if res =? 0 then
    compareRangesUsingStarts (CallHierarchyItem.range (item a))
                             (CallHierarchyItem.range (item b))
  else res.
End Compare.
End Call.

Module Sorter.
Section Compare.
Context {URI Err : Type}.
Variable toString : URI -> string.
Variable compare_strings : string -> string -> Z.
Variable compareRangesUsingStarts : IRange -> IRange -> Z.

Definition compare (element otherElement : Call URI Err) : Z :=
  Call.compare toString compare_strings compareRangesUsingStarts
               element otherElement.
End Compare.
End Sorter.

(** *** The two comparators that [Call.compare] imports *)

Module strings.
(** Modelled from the spec: [compare] of ./common/strings is not among the
    sources.  The spec has the uris compared as opaque strings,
    lexicographically, with a three-way result. *)
Definition compare (a b : string) : Z :=
  if (a <? b)%string then -1
  else if (b <? a)%string then 1
  else 0.
End strings.

Module Range.
(** Modelled from the spec: [Range.compareRangesUsingStarts] of
    ./common/range is not among the sources.  The spec has two ranges
    compared by start position, row then column, both ascending, with a
    three-way result. *)
Definition compareRangesUsingStarts (a b : IRange) : Z :=
  if startLineNumber a =? startLineNumber b
  then startColumn a - startColumn b
  else startLineNumber a - startLineNumber b.
End Range.

(** The sign of a three-way comparator result. *)
Definition sign (n : Z) : comparison := n ?= 0.

(** Start positions and their order, row first and then column, as the spec
    words the tie-break. *)
Definition startPosition (r : IRange) : Z * Z :=
  (startLineNumber r, startColumn r).

Definition compareStartPositions (p q : Z * Z) : comparison :=
  match fst p ?= fst q with
  | Eq => snd p ?= snd q
  | c => c
  end.

(* ================================================================= *)
(** ** [DataSource] *)

Module DataSource.
(** The constructor's only field is the injected direction accessor. *)
Record t : Type := mk {
  getDirection : unit -> CallHierarchyDirection
}.

Definition hasChildren (this : t) : bool := true.

Section GetChildren.
Context {URI Err : Type}.

(** The expression [CancellationToken.None] as this file evaluates it.  The
    import of [CancellationToken] on line 8 is commented out and nothing
    else in the file binds the identifier, so reading it throws a
    ReferenceError instead of giving a token. *)
Definition CancellationToken_None : Promise Err CancellationToken :=
  Promise.Thrown (ReferenceError "CancellationToken").

(** [async getChildren(element)]: the roots of the model, or one level of
    children of a call, in the direction that the accessor reports at the
    time of the call.  The arguments of a resolution are evaluated before
    it is called, the token last. *)
Definition getChildren (this : t) (element : TreeElement URI Err)
  : Promise Err (list (Call URI Err)) :=
  match element with
  | OfModel element =>
      Promise.Fulfilled
        (map (fun root => mkCall root None element None) (roots element))
  | OfCall element =>
      let model := model element in
      let item := item element in
      if CallHierarchyDirection_eqb (getDirection this tt) CallsFrom then
        let_await token := CancellationToken_None in
        let_await calls := resolveOutgoingCalls model item token in
        Promise.Fulfilled
          (map (fun call =>
                  mkCall (OutgoingCall.to call)
                         (Some (map (fun range =>
                                       Location.mk (CallHierarchyItem.uri item) range)
                                    (OutgoingCall.fromRanges call)))
                         model
                         (Some element))
               calls)
      else
        let_await token := CancellationToken_None in
        let_await calls := resolveIncomingCalls model item token in
        Promise.Fulfilled
          (map (fun call =>
                  mkCall (IncomingCall.from call)
                         (Some (map (fun range =>
                                       Location.mk
                                         (CallHierarchyItem.uri (IncomingCall.from call))
                                         range)
                                    (IncomingCall.fromRanges call)))
                         model
                         (Some element))
               calls)
  end.
End GetChildren.
End DataSource.

(* ================================================================= *)
(** ** [IdentityProvider] *)

Module IdentityProvider.
Record t : Type := mk {
  getDirection : unit -> CallHierarchyDirection
}.

Section GetId.
Context {URI Err : Type}.
(** The run-time value of a direction as [+] renders it in a string (the
    enum is declared in ./callHierarchy) and [JSON.stringify] at the two
    types it is used at. *)
Variable directionValue : CallHierarchyDirection -> string.
Variable stringifyURI : URI -> string.
Variable stringifyRange : IRange -> string.

(** [getId(element)]: the direction, the uri and the range of the element,
    followed by the id of its parent when it has one. *)
Fixpoint getId (this : t) (element : Call URI Err) : string :=
  let res :=
    ((directionValue (getDirection this tt)
      ++ stringifyURI (CallHierarchyItem.uri (item element)))
      ++ stringifyRange (CallHierarchyItem.range (item element)))%string in
  match parent element with
  | Some parent => (res ++ getId this parent)%string
  | None => res
  end.
End GetId.
End IdentityProvider.

(** What [Call.compare] sorts by: the uri as a string and the start position
    of the range. *)
Definition sortKey {URI Err : Type} (toString : URI -> string)
    (c : Call URI Err) : string * (Z * Z) :=
  (toString (CallHierarchyItem.uri (item c)),
   startPosition (CallHierarchyItem.range (item c))).

(** A serialisation is self-delimiting when the value can be read back from
    the front of any text that starts with its serialisation: no output is a
    proper prefix of another one, and distinct values have distinct outputs.
    [JSON.stringify] has this property on objects and on strings. *)
Definition self_delimiting {A : Type} (f : A -> string) : Prop :=
  forall (x y : A) (s t : string), (f x ++ s = f y ++ t)%string -> x = y.

(** *** [JSON.stringify] on ranges

    The text that [JSON.stringify] gives for an object with the four
    numeric fields of [IRange], for integers small enough to print without
    an exponent.  The statements about ids below do not depend on it; it
    shows that their assumptions hold of the serialisation in use. *)
Module JSON.
Local Open Scope string_scope.

Definition quote : string := String "034"%char EmptyString.

Definition key (k : string) : string := quote ++ k ++ quote ++ ":".

Definition stringify_number (n : Z) : string :=
  NilZero.string_of_int (Z.to_int n).

Definition stringify_IRange (r : IRange) : string :=
  "{" ++ key "startLineNumber" ++ stringify_number (startLineNumber r)
  ++ "," ++ key "startColumn" ++ stringify_number (startColumn r)
  ++ "," ++ key "endLineNumber" ++ stringify_number (endLineNumber r)
  ++ "," ++ key "endColumn" ++ stringify_number (endColumn r)
  ++ "}".

(** The characters a printed integer is made of. *)
Definition is_number_char (c : ascii) : bool :=
  let n := nat_of_ascii c in
  (Nat.eqb n 45 || (Nat.leb 48 n && Nat.leb n 57))%bool.

Fixpoint all_chars (p : ascii -> bool) (s : string) : bool :=
  match s with
  | EmptyString => true
  | String c s => (p c && all_chars p s)%bool
  end.
End JSON.

(** *** A small session used to exercise the statements

    Three resources, one symbol in each.  The model has the single root
    [A]; [A] calls [B] at [r1] and is called by [C] at [r2]; no other symbol
    can be resolved, and a rejection carries a message. *)
Module Session.
Local Open Scope string_scope.

Inductive Resource : Type := a_ts | b_ts | c_ts.

Definition path (u : Resource) : string :=
  match u with
  | a_ts => "/a.ts"
  | b_ts => "/b.ts"
  | c_ts => "/c.ts"
  end.

Definition toString (u : Resource) : string := "file://" ++ path u.

Definition toJSON (u : Resource) : string :=
  "{" ++ JSON.key "$mid" ++ "1"
  ++ "," ++ JSON.key "path" ++ JSON.quote ++ path u ++ JSON.quote
  ++ "," ++ JSON.key "scheme" ++ JSON.quote ++ "file" ++ JSON.quote
  ++ "}".

Definition directionValue (d : CallHierarchyDirection) : string :=
  match d with
  | CallsTo => "incomingCalls"
  | CallsFrom => "outgoingCalls"
  end.

Definition r0 : IRange := mkRange 1 1 1 10.
Definition r1 : IRange := mkRange 4 3 4 8.
Definition r2 : IRange := mkRange 9 5 9 12.
Definition A : CallHierarchyItem Resource :=
  CallHierarchyItem.mk a_ts r0 "A" None.
Definition B : CallHierarchyItem Resource :=
  CallHierarchyItem.mk b_ts r0 "B" None.
Definition C : CallHierarchyItem Resource :=
  CallHierarchyItem.mk c_ts r0 "C" (Some "caller").

Definition unresolvable : string := "symbol no longer resolvable".

Definition theModel : CallHierarchyModel Resource string :=
  mkModel [A]
    (fun item _ =>
       if String.eqb (CallHierarchyItem.name item) "A"
       then Promise.Fulfilled [OutgoingCall.mk B [r1]]
       else Promise.Rejected unresolvable)
    (fun item _ =>
       if String.eqb (CallHierarchyItem.name item) "A"
       then Promise.Fulfilled [IncomingCall.mk C [r2]]
       else Promise.Rejected unresolvable).

Definition emptyModel : CallHierarchyModel Resource string :=
  mkModel [] (fun _ _ => Promise.Fulfilled []) (fun _ _ => Promise.Fulfilled []).

Definition outgoing : DataSource.t := DataSource.mk (fun _ => CallsFrom).
Definition incoming : DataSource.t := DataSource.mk (fun _ => CallsTo).
Definition idsOutgoing : IdentityProvider.t :=
  IdentityProvider.mk (fun _ => CallsFrom).
Definition idsIncoming : IdentityProvider.t :=
  IdentityProvider.mk (fun _ => CallsTo).

Definition callA : Call Resource string := mkCall A None theModel None.
Definition callB : Call Resource string :=
  mkCall B (Some [Location.mk a_ts r1]) theModel (Some callA).
Definition callC : Call Resource string :=
  mkCall C (Some [Location.mk c_ts r2]) theModel (Some callA).

(** Calls with the identities of [callA] and [callB] and nothing else in
    common with them. *)
Definition otherA : Call Resource string :=
  mkCall (CallHierarchyItem.mk a_ts r0 "renamed" (Some "detail"))
         (Some []) emptyModel None.
Definition otherB : Call Resource string :=
  mkCall (CallHierarchyItem.mk b_ts r0 "renamed" None)
         None emptyModel (Some otherA).
End Session.

(* ================================================================= *)
(** ** [AccessibilityProvider] *)

Module AccessibilityProvider.
Record t : Type := mk {
  getDirection : unit -> CallHierarchyDirection
}.

Definition getWidgetAriaLabel (this : t) : string :=
  "tree.aria Call Hierarchy"%string.

Section GetAriaLabel.
Context {URI Err : Type}.

(** [getAriaLabel(element): string | null]; the two template literals end
    with the name of the item. *)
Definition getAriaLabel (this : t) (element : Call URI Err) : option string :=
  if CallHierarchyDirection_eqb (getDirection this tt) CallsFrom then
    Some ("from calls from {0} " ++ CallHierarchyItem.name (item element))%string
  else
    Some ("to callers of {0} " ++ CallHierarchyItem.name (item element))%string.
End GetAriaLabel.
End AccessibilityProvider.

(* ================================================================= *)
(** ** Notions used to state properties of whole trees *)

(** The laws of a three-way comparator, on the signs of its results:
    swapping the arguments flips the sign, and each outcome is transitive. *)
Record three_way_order {A : Type} (cmp : A -> A -> Z) : Prop := {
  three_way_swap : forall x y, sign (cmp y x) = CompOpp (sign (cmp x y));
  three_way_trans : forall o x y z,
    sign (cmp x y) = o -> sign (cmp y z) = o -> sign (cmp x z) = o
}.

Section TreeNotions.
Context {URI Err : Type}.

(** The proper ancestors of a call, the parent first and the root last. *)
Fixpoint ancestors (c : Call URI Err) : list (Call URI Err) :=
  match parent c with
  | Some p => p :: ancestors p
  | None => []
  end.

(** The calls that the tree host can obtain for a model: those that
    [getChildren] returns for the model itself and, from there on, for a
    call obtained before.  Each request may come with its own data source,
    since the direction may be switched between two requests. *)
Inductive Reachable (m : CallHierarchyModel URI Err) : Call URI Err -> Prop :=
  | Reachable_root (this : DataSource.t) children c :
      DataSource.getChildren this (OfModel m) = Promise.Fulfilled children ->
      In c children ->
      Reachable m c
  | Reachable_child (this : DataSource.t) p children c :
      Reachable m p ->
      DataSource.getChildren this (OfCall p) = Promise.Fulfilled children ->
      In c children ->
      Reachable m c.

End TreeNotions.

(** *** A second session: [A] calls itself, and a model that names one
    symbol twice. *)
Module Recursion.
Definition selfCall : Call Session.Resource string :=
  mkCall Session.A (Some [Location.mk Session.a_ts Session.r1])
         Session.theModel (Some Session.callA).

(** A model whose resolution names the same symbol twice, under two names
    and at two call sites. *)
Definition twice : CallHierarchyModel Session.Resource string :=
  mkModel [Session.A]
    (fun _ _ =>
       Promise.Fulfilled
         [OutgoingCall.mk Session.B [Session.r1];
          OutgoingCall.mk
            (CallHierarchyItem.mk Session.b_ts Session.r0 "B again"%string None)
            [Session.r2]])
    (fun _ _ => Promise.Fulfilled []).

Definition twiceA : Call Session.Resource string :=
  mkCall Session.A None twice None.
Definition firstB : Call Session.Resource string :=
  mkCall Session.B (Some [Location.mk Session.a_ts Session.r1]) twice (Some twiceA).
Definition secondB : Call Session.Resource string :=
  mkCall (CallHierarchyItem.mk Session.b_ts Session.r0 "B again"%string None)
         (Some [Location.mk Session.a_ts Session.r2]) twice (Some twiceA).

Definition labelsFrom : AccessibilityProvider.t :=
  AccessibilityProvider.mk (fun _ => CallsFrom).
Definition labelsTo : AccessibilityProvider.t :=
  AccessibilityProvider.mk (fun _ => CallsTo).
End Recursion.

(* ================================================================= *)
(** * Properties of [DataSource.getChildren] *)

Section DataSourceFacts.
Context {URI Err : Type}.
Implicit Types (this : DataSource.t) (element : Call URI Err).

Lemma Forall2_map_intro (A B : Type) (R : A -> B -> Prop) (f : A -> B) (l : list A) :
  (forall x, R x (f x)) -> Forall2 R l (map f l).
Proof.
  intros HR; induction l as [|x l IH]; simpl; constructor; auto.
Qed.

(** Expanding a call stops where [CancellationToken.None] is evaluated,
    under either direction and before the model is asked. *)
Lemma getChildren_of_call this element :
  DataSource.getChildren this (OfCall element)
  = Promise.Thrown (ReferenceError "CancellationToken").
Proof.
  simpl; destruct (CallHierarchyDirection_eqb _ _); reflexivity.
Qed.

(** C2.  For the root container the data source answers with one [Call]
    per root item of the model, in the order of the roots; each of them has
    no locations and no parent, and carries the model. *)
Theorem getChildren_of_model this (m : CallHierarchyModel URI Err) :
  exists children,
    DataSource.getChildren this (OfModel m) = Promise.Fulfilled children /\
    List.length children = List.length (roots m) /\
    Forall2 (fun root child =>
               item child = root /\ locations child = None /\
               model child = m /\ parent child = None)
            (roots m) children.
Proof.
  simpl; eexists; split; [reflexivity|]; split.
  - apply List.length_map.
  - apply Forall2_map_intro; intros root; simpl; auto.
Qed.


End DataSourceFacts.

(** The first step of the spec's scenario, run on the session. *)
Example scenario_roots :
  DataSource.getChildren Session.outgoing (OfModel Session.theModel)
  = Promise.Fulfilled [Session.callA].
Proof. reflexivity. Qed.

(** C1.  The attribution of the call sites is not reached.  In the session
    [A] has one outgoing call, to [B] at [r1], and one incoming call, from
    [C] at [r2]; expanding the call of [A] is nevertheless rejected with
    the ReferenceError for [CancellationToken] under either direction, so
    no child is built and no location is attributed to any resource. *)
Theorem getChildren_location_attribution_unreached :
  (forall token,
     resolveOutgoingCalls Session.theModel Session.A token
     = Promise.Fulfilled [OutgoingCall.mk Session.B [Session.r1]]) /\
  DataSource.getChildren Session.outgoing (OfCall Session.callA)
    = Promise.Thrown (ReferenceError "CancellationToken") /\
  (forall token,
     resolveIncomingCalls Session.theModel Session.A token
     = Promise.Fulfilled [IncomingCall.mk Session.C [Session.r2]]) /\
  DataSource.getChildren Session.incoming (OfCall Session.callA)
    = Promise.Thrown (ReferenceError "CancellationToken").
Proof.
  repeat split; apply getChildren_of_call.
Qed.


(** C9.  The rejection of the resolution is not what [getChildren] is
    rejected with.  In the session neither resolution can resolve [B] and
    both are rejected with the same message; expanding the call of [B] is
    rejected with the ReferenceError for [CancellationToken] instead, under
    either direction, the resolution not having been called. *)
Theorem getChildren_rejection_not_propagated :
  (forall token,
     resolveOutgoingCalls Session.theModel Session.B token
     = Promise.Rejected Session.unresolvable) /\
  DataSource.getChildren Session.outgoing (OfCall Session.callB)
    = Promise.Thrown (ReferenceError "CancellationToken") /\
  DataSource.getChildren Session.outgoing (OfCall Session.callB)
    <> Promise.Rejected Session.unresolvable /\
  (forall token,
     resolveIncomingCalls Session.theModel Session.B token
     = Promise.Rejected Session.unresolvable) /\
  DataSource.getChildren Session.incoming (OfCall Session.callB)
    = Promise.Thrown (ReferenceError "CancellationToken") /\
  DataSource.getChildren Session.incoming (OfCall Session.callB)
    <> Promise.Rejected Session.unresolvable.
Proof.
  repeat split; try apply getChildren_of_call;
    rewrite getChildren_of_call; discriminate.
Qed.

(** C10.  No child is returned for the results of the resolution.  In the
    session each resolution of [A] has exactly one result, with one call
    site; expanding the call of [A] is fulfilled with no list of children
    at all, under either direction. *)
Theorem getChildren_no_child_for_result :
  (forall token,
     resolveOutgoingCalls Session.theModel Session.A token
     = Promise.Fulfilled [OutgoingCall.mk Session.B [Session.r1]]) /\
  (forall children,
     DataSource.getChildren Session.outgoing (OfCall Session.callA)
     <> Promise.Fulfilled children) /\
  (forall token,
     resolveIncomingCalls Session.theModel Session.A token
     = Promise.Fulfilled [IncomingCall.mk Session.C [Session.r2]]) /\
  (forall children,
     DataSource.getChildren Session.incoming (OfCall Session.callA)
     <> Promise.Fulfilled children).
Proof.
  repeat split; intros children; rewrite getChildren_of_call; discriminate.
Qed.

(* ================================================================= *)
(** * Properties of [Call.compare] *)

Section CompareFacts.
Context {URI Err : Type}.
Variable toString : URI -> string.
Implicit Types a b c : Call URI Err.

(** C7.  Whatever the imported comparators are, [Call.compare] reads
    nothing but the uri and the range of the two items: pairs of calls that
    agree on these give the same result, however their names, locations,
    models and parents differ. *)
Theorem compare_reads_only_identity
    (compare_strings : string -> string -> Z)
    (compareRangesUsingStarts : IRange -> IRange -> Z) a b a' b' :
  CallHierarchyItem.uri (item a) = CallHierarchyItem.uri (item a') ->
  CallHierarchyItem.range (item a) = CallHierarchyItem.range (item a') ->
  CallHierarchyItem.uri (item b) = CallHierarchyItem.uri (item b') ->
  CallHierarchyItem.range (item b) = CallHierarchyItem.range (item b') ->
  Call.compare toString compare_strings compareRangesUsingStarts a b =
  Call.compare toString compare_strings compareRangesUsingStarts a' b'.
Proof.
  intros Hua Hra Hub Hrb; unfold Call.compare.
  rewrite Hua, Hra, Hub, Hrb; reflexivity.
Qed.

(** *** The order under the comparators of the spec *)

Local Abbreviation cmp :=
  (Call.compare toString strings.compare Range.compareRangesUsingStarts).

Lemma Ascii_compare_refl (x : ascii) : Ascii.compare x x = Eq.
Proof. apply N.compare_refl. Qed.

Lemma Ascii_compare_lt_trans (x y z : ascii) :
  Ascii.compare x y = Lt -> Ascii.compare y z = Lt -> Ascii.compare x z = Lt.
Proof.
  unfold Ascii.compare; rewrite !N.compare_lt_iff; apply N.lt_trans.
Qed.

Lemma String_compare_refl (s : string) : String.compare s s = Eq.
Proof.
  induction s as [|x s IH]; simpl; [reflexivity|].
  rewrite Ascii_compare_refl; exact IH.
Qed.

Lemma String_compare_lt_trans (s t u : string) :
  String.compare s t = Lt -> String.compare t u = Lt -> String.compare s u = Lt.
Proof.
  revert t u; induction s as [|x s IH]; intros [|y t] [|z u]; simpl;
    try congruence.
  destruct (Ascii.compare x y) eqn:Hxy; try discriminate;
  destruct (Ascii.compare y z) eqn:Hyz; try discriminate; intros Hst Htu.
  - apply Ascii.compare_eq_iff in Hxy, Hyz; subst.
    rewrite Ascii_compare_refl; eauto.
  - apply Ascii.compare_eq_iff in Hxy; subst; rewrite Hyz; reflexivity.
  - apply Ascii.compare_eq_iff in Hyz; subst; rewrite Hxy; reflexivity.
  - rewrite (Ascii_compare_lt_trans _ _ _ Hxy Hyz); reflexivity.
Qed.

Lemma sign_strings_compare (s t : string) :
  sign (strings.compare s t) = String.compare s t.
Proof.
  unfold strings.compare, String.ltb.
  rewrite (String.compare_antisym t s).
  destruct (String.compare s t); reflexivity.
Qed.

Lemma sign_compareRangesUsingStarts (r q : IRange) :
  sign (Range.compareRangesUsingStarts r q)
  = compareStartPositions (startPosition r) (startPosition q).
Proof.
  unfold Range.compareRangesUsingStarts, compareStartPositions, startPosition, sign.
  simpl; destruct (Z.eqb_spec (startLineNumber r) (startLineNumber q)) as [->|Hne].
  - rewrite Z.compare_refl; symmetry; apply Z.compare_sub.
  - rewrite <- Z.compare_sub.
    destruct (Z.compare_spec (startLineNumber r) (startLineNumber q));
      [contradiction|reflexivity|reflexivity].
Qed.

Lemma sign_zero (n : Z) : sign n = Eq <-> n = 0.
Proof. unfold sign; apply Z.compare_eq_iff. Qed.

Lemma sign_negative (n : Z) : sign n = Lt <-> n < 0.
Proof. unfold sign; apply Z.compare_lt_iff. Qed.

(** The sign of [Call.compare] is the lexicographic combination of the
    order of the uri strings and the order of the start positions. *)
Lemma sign_compare a b :
  sign (cmp a b) =
  match String.compare (toString (CallHierarchyItem.uri (item a)))
                       (toString (CallHierarchyItem.uri (item b))) with
  | Eq => compareStartPositions
            (startPosition (CallHierarchyItem.range (item a)))
            (startPosition (CallHierarchyItem.range (item b)))
  | o => o
  end.
Proof.
  unfold Call.compare.
  rewrite <- sign_strings_compare, <- sign_compareRangesUsingStarts.
  destruct (Z.eqb_spec (strings.compare (toString (CallHierarchyItem.uri (item a)))
                          (toString (CallHierarchyItem.uri (item b)))) 0) as [->|Hne].
  - reflexivity.
  - destruct (sign _) eqn:Hs; try reflexivity.
    apply sign_zero in Hs; contradiction.
Qed.

Lemma compareStartPositions_antisym (p q : Z * Z) :
  compareStartPositions q p = CompOpp (compareStartPositions p q).
Proof.
  unfold compareStartPositions.
  rewrite (Z.compare_antisym (fst p) (fst q)), (Z.compare_antisym (snd p) (snd q)).
  destruct (fst p ?= fst q); reflexivity.
Qed.

Lemma compareStartPositions_lt (p q : Z * Z) :
  compareStartPositions p q = Lt <->
  fst p < fst q \/ (fst p = fst q /\ snd p < snd q).
Proof.
  unfold compareStartPositions.
  destruct (Z.compare_spec (fst p) (fst q)); [rewrite Z.compare_lt_iff| |];
    split; try lia; try congruence; auto.
Qed.

Lemma compareStartPositions_eq (p q : Z * Z) :
  compareStartPositions p q = Eq <-> p = q.
Proof.
  unfold compareStartPositions; destruct p as [l c], q as [l' c']; simpl.
  destruct (Z.compare_spec l l') as [->|Hlt|Hgt].
  - rewrite Z.compare_eq_iff; split; [intros ->|intros [= ->]]; reflexivity.
  - split; [discriminate|intros [= -> ->]; lia].
  - split; [discriminate|intros [= -> ->]; lia].
Qed.

Lemma sign_compare_swap a b : sign (cmp b a) = CompOpp (sign (cmp a b)).
Proof.
  rewrite !sign_compare, (String.compare_antisym (toString _) (toString _)).
  rewrite (compareStartPositions_antisym
             (startPosition (CallHierarchyItem.range (item a)))).
  destruct (String.compare _ _); reflexivity.
Qed.

Lemma sign_compare_eq a b :
  sign (cmp a b) = Eq <-> sortKey toString a = sortKey toString b.
Proof.
  rewrite sign_compare; unfold sortKey; split.
  - destruct (String.compare _ _) eqn:Hs; try discriminate.
    apply String.compare_eq_iff in Hs; rewrite compareStartPositions_eq.
    congruence.
  - intros Hkey; injection Hkey as Hs Hline Hcolumn.
    rewrite Hs, String_compare_refl.
    apply compareStartPositions_eq; unfold startPosition; congruence.
Qed.

Lemma sign_compare_lt_trans a b c :
  sign (cmp a b) = Lt -> sign (cmp b c) = Lt -> sign (cmp a c) = Lt.
Proof.
  rewrite !sign_compare.
  destruct (String.compare (toString (CallHierarchyItem.uri (item a))) _) eqn:Hab;
    try discriminate;
  destruct (String.compare (toString (CallHierarchyItem.uri (item b))) _) eqn:Hbc;
    try discriminate; intros H1 H2.
  - apply String.compare_eq_iff in Hab, Hbc.
    rewrite Hab, Hbc, String_compare_refl.
    apply compareStartPositions_lt in H1, H2; apply compareStartPositions_lt; lia.
  - apply String.compare_eq_iff in Hab; rewrite Hab, Hbc; reflexivity.
  - apply String.compare_eq_iff in Hbc; rewrite <- Hbc, Hab; reflexivity.
  - rewrite (String_compare_lt_trans _ _ _ Hab Hbc); reflexivity.
Qed.

(** C5.  Under a lexicographic string comparator and a range comparator by
    start position, [Call.compare] is a total three-way order: a call
    compares equal to itself, swapping the arguments flips the sign, calls
    with distinct (uri string, range start) keys never compare equal, and
    each of the three outcomes is transitive. *)
Theorem compare_total_order a b c :
  cmp a a = 0 /\
  sign (cmp b a) = CompOpp (sign (cmp a b)) /\
  (sortKey toString a <> sortKey toString b -> cmp a b <> 0) /\
  (forall o : comparison,
     sign (cmp a b) = o -> sign (cmp b c) = o -> sign (cmp a c) = o).
Proof.
  split; [|split; [|split]].
  - apply sign_zero, sign_compare_eq; reflexivity.
  - apply sign_compare_swap.
  - intros Hkey Hzero; apply Hkey, sign_compare_eq, sign_zero, Hzero.
  - intros [| |] Hab Hbc.
    + apply sign_compare_eq in Hab, Hbc; apply sign_compare_eq; congruence.
    + exact (sign_compare_lt_trans _ _ _ Hab Hbc).
    + rewrite (sign_compare_swap b a) in Hab; rewrite (sign_compare_swap c b) in Hbc.
      rewrite (sign_compare_swap c a).
      destruct (sign (cmp b a)) eqn:Hba; try discriminate.
      destruct (sign (cmp c b)) eqn:Hcb; try discriminate.
      rewrite (sign_compare_lt_trans _ _ _ Hcb Hba); reflexivity.
Qed.

(** C6.  When the two uris have the same string, the sign of
    [Call.compare] is the order of the two start positions, the start line
    first and the start column second, both ascending; the ends of the
    ranges play no part. *)
Theorem compare_tie_break a b :
  toString (CallHierarchyItem.uri (item a))
    = toString (CallHierarchyItem.uri (item b)) ->
  sign (cmp a b) =
  compareStartPositions (startPosition (CallHierarchyItem.range (item a)))
                        (startPosition (CallHierarchyItem.range (item b))).
Proof.
  intros Huri; rewrite sign_compare, Huri, String_compare_refl; reflexivity.
Qed.
End CompareFacts.

Lemma compare_reads_only_identity_witness :
  Call.compare Session.toString strings.compare Range.compareRangesUsingStarts
    Session.callA Session.callB
  = Call.compare Session.toString strings.compare Range.compareRangesUsingStarts
      Session.otherA Session.otherB.
Proof.
  apply compare_reads_only_identity; reflexivity.
Defined.

Lemma compare_total_order_witness :
  Call.compare Session.toString strings.compare Range.compareRangesUsingStarts
    Session.callA Session.callB <> 0 /\
  sign (Call.compare Session.toString strings.compare Range.compareRangesUsingStarts
          Session.callA Session.callC) = Lt.
Proof.
  pose proof (compare_total_order Session.toString
                Session.callA Session.callB Session.callC) as [_ [_ [Hne Htrans]]].
  split.
  - apply Hne; discriminate.
  - apply Htrans; reflexivity.
Defined.

Lemma compare_tie_break_witness :
  sign (Call.compare Session.toString strings.compare
          Range.compareRangesUsingStarts
          (mkCall (CallHierarchyItem.mk Session.a_ts (mkRange 4 3 9 9)
                     "f"%string None) None Session.theModel None)
          (mkCall (CallHierarchyItem.mk Session.a_ts (mkRange 4 7 4 8)
                     "g"%string None) None Session.theModel None))
  = compareStartPositions (4, 3) (4, 7).
Proof.
  apply (compare_tie_break Session.toString); reflexivity.
Defined.

(* ================================================================= *)
(** * Properties of [IdentityProvider.getId] *)

Section StringFacts.
Local Open Scope string_scope.

Lemma append_assoc (s t u : string) : (s ++ t) ++ u = s ++ (t ++ u).
Proof. induction s as [|x s IH]; simpl; [reflexivity|rewrite IH; reflexivity]. Qed.

Lemma append_empty_r (s : string) : s ++ EmptyString = s.
Proof. induction s as [|x s IH]; simpl; [reflexivity|rewrite IH; reflexivity]. Qed.

Lemma length_append (s t : string) :
  String.length (s ++ t) = (String.length s + String.length t)%nat.
Proof. induction s as [|x s IH]; simpl; [reflexivity|rewrite IH; reflexivity]. Qed.

Lemma append_inv_head (s t u : string) : s ++ t = s ++ u -> t = u.
Proof. induction s as [|x s IH]; simpl; [auto|intros [= H]; auto]. Qed.

Lemma append_inv_length (s s' t t' : string) :
  String.length s = String.length s' -> s ++ t = s' ++ t' -> s = s'.
Proof.
  revert s'; induction s as [|x s IH]; intros [|x' s']; simpl;
    try discriminate; [reflexivity|].
  intros [= Hlen] [= -> Happ]; f_equal; eauto.
Qed.

Lemma append_is_empty (s t : string) : s ++ t = EmptyString -> s = EmptyString.
Proof. destruct s; simpl; [reflexivity|discriminate]. Qed.
End StringFacts.

Section IdentityFacts.
Context {URI Err : Type}.
Variable directionValue : CallHierarchyDirection -> string.
Variable stringifyURI : URI -> string.
Variable stringifyRange : IRange -> string.
Implicit Types (this other : IdentityProvider.t) (x y : Call URI Err).
Local Open Scope string_scope.

Local Abbreviation getId :=
  (IdentityProvider.getId directionValue stringifyURI stringifyRange).

(** One level of the id, followed by the id of the parent when there is
    one. *)
Lemma getId_unfold this x :
  getId this x =
  directionValue (IdentityProvider.getDirection this tt)
  ++ (stringifyURI (CallHierarchyItem.uri (item x))
      ++ (stringifyRange (CallHierarchyItem.range (item x))
          ++ match parent x with
             | Some p => getId this p
             | None => EmptyString
             end)).
Proof.
  destruct x as [i l m [p|]]; simpl.
  - rewrite !append_assoc; reflexivity.
  - rewrite !append_assoc, append_empty_r; reflexivity.
Qed.

Lemma chain_unfold x :
  chain x = identity x :: match parent x with Some p => chain p | None => [] end.
Proof. destruct x; reflexivity. Qed.

(** The id is a function of the direction and of the ancestor chain. *)
Lemma getId_respects_chain this other x y :
  IdentityProvider.getDirection this tt = IdentityProvider.getDirection other tt ->
  chain x = chain y ->
  getId this x = getId other y.
Proof.
  intros Hd; revert y.
  induction x as [i l m|i l m p IH] using Call_parent_ind;
    intros y; rewrite (chain_unfold y), (getId_unfold _ y);
    rewrite chain_unfold, getId_unfold; simpl;
    destruct (parent y) as [q|] eqn:Hq; unfold identity; simpl.
  - intros [= _ _ Hnil]; destruct q; discriminate.
  - intros [= -> ->]; rewrite Hd; reflexivity.
  - intros [= -> -> Hchain]; rewrite Hd, (IH q Hchain); reflexivity.
  - intros [= _ _ Hnil]; destruct p; discriminate.
Qed.

(** The length of an id, compared under two accessors: the ids of one call
    differ only in the direction values, one per level. *)
Lemma getId_length this other x :
  (String.length (getId this x)
   + List.length (chain x)
     * String.length (directionValue (IdentityProvider.getDirection other tt))
   = String.length (getId other x)
     + List.length (chain x)
       * String.length (directionValue (IdentityProvider.getDirection this tt)))%nat.
Proof.
  induction x as [i l m|i l m p IH] using Call_parent_ind;
    rewrite chain_unfold, !getId_unfold; simpl parent; cbv iota;
    rewrite !length_append; simpl List.length; lia.
Qed.

(** C3.  Under one direction, two calls whose ancestor chains carry the
    same uri and range at every level get the same id.  When the value that
    the direction accessor returns changes, the id of every call changes
    with it. *)
Theorem getId_stable_and_direction_sensitive this other x y :
  (IdentityProvider.getDirection this tt = IdentityProvider.getDirection other tt ->
   chain x = chain y ->
   getId this x = getId other y) /\
  (directionValue (IdentityProvider.getDirection this tt)
     <> directionValue (IdentityProvider.getDirection other tt) ->
   getId this x <> getId other x).
Proof.
  split; [apply getId_respects_chain|].
  intros Hvalue Hid.
  pose proof (getId_length this other x) as Hlen.
  rewrite Hid in Hlen.
  assert (Hpos : (0 < List.length (chain x))%nat)
    by (rewrite chain_unfold; simpl; lia).
  assert (Hsame :
    String.length (directionValue (IdentityProvider.getDirection this tt))
    = String.length (directionValue (IdentityProvider.getDirection other tt)))
    by nia.
  apply Hvalue.
  rewrite (getId_unfold this x), (getId_unfold other x) in Hid.
  exact (append_inv_length _ _ _ _ Hsame Hid).
Qed.

Lemma directionValue_not_empty (d : CallHierarchyDirection) :
  self_delimiting directionValue -> directionValue d <> EmptyString.
Proof.
  intros Hsd Hempty.
  assert (Hall : forall d', d = d').
  { intros d'; apply (Hsd d d' (directionValue d') EmptyString).
    rewrite Hempty, append_empty_r; reflexivity. }
  pose proof (Hall CallsTo); pose proof (Hall CallsFrom); congruence.
Qed.

Lemma getId_not_empty this x :
  self_delimiting directionValue -> getId this x <> EmptyString.
Proof.
  intros Hsd Hempty; rewrite getId_unfold in Hempty.
  apply append_is_empty in Hempty.
  exact (directionValue_not_empty Hsd Hempty).
Qed.

(** Equal ids come from equal directions and equal ancestor chains. *)
Lemma getId_inj this other x y :
  self_delimiting directionValue ->
  self_delimiting stringifyURI ->
  self_delimiting stringifyRange ->
  getId this x = getId other y ->
  chain x = chain y /\
  IdentityProvider.getDirection this tt = IdentityProvider.getDirection other tt.
Proof.
  intros Hdir Huri Hrange; revert y.
  induction x as [i l m|i l m p IH] using Call_parent_ind;
    intros y; rewrite (chain_unfold y), (getId_unfold _ y);
    rewrite chain_unfold, getId_unfold; simpl; intros Hid;
    pose proof (Hdir _ _ _ _ Hid) as Hd; rewrite Hd in Hid;
    apply append_inv_head in Hid;
    pose proof (Huri _ _ _ _ Hid) as Hu; rewrite Hu in Hid;
    apply append_inv_head in Hid;
    pose proof (Hrange _ _ _ _ Hid) as Hr; rewrite Hr in Hid;
    apply append_inv_head in Hid;
    unfold identity; simpl; rewrite Hu, Hr;
    destruct (parent y) as [q|].
  - symmetry in Hid; elim (getId_not_empty other q Hdir Hid).
  - auto.
  - destruct (IH q Hid) as [-> _]; auto.
  - elim (getId_not_empty this p Hdir Hid).
Qed.

(** C4.  With self-delimiting serialisations of the direction, the uri and
    the range, two calls get the same id exactly when their ancestor chains
    agree item for item and the direction is the same; in particular two
    siblings under one parent whose items differ in uri or in range get
    different ids under one direction. *)
Theorem getId_identifies_chain this other x y :
  self_delimiting directionValue ->
  self_delimiting stringifyURI ->
  self_delimiting stringifyRange ->
  (getId this x = getId other y <->
   chain x = chain y /\
   IdentityProvider.getDirection this tt = IdentityProvider.getDirection other tt) /\
  (parent x = parent y -> identity x <> identity y ->
   getId this x <> getId this y).
Proof.
  intros Hdir Huri Hrange; split; [split|].
  - apply getId_inj; assumption.
  - intros [Hchain Hd]; apply getId_respects_chain; assumption.
  - intros _ Hitems Hid; apply Hitems.
    destruct (getId_inj this this x y Hdir Huri Hrange Hid) as [Hchain _].
    rewrite (chain_unfold x), (chain_unfold y) in Hchain.
    congruence.
Qed.
End IdentityFacts.

(** *** The assumptions hold of the JSON serialisation *)

Section JSONFacts.
Local Open Scope string_scope.

Lemma all_chars_string_of_uint (d : Decimal.uint) :
  JSON.all_chars JSON.is_number_char (NilEmpty.string_of_uint d) = true.
Proof.
  induction d as [|d IH|d IH|d IH|d IH|d IH|d IH|d IH|d IH|d IH|d IH];
    simpl; try rewrite IH; reflexivity.
Qed.

Lemma stringify_number_chars (n : Z) :
  JSON.all_chars JSON.is_number_char (JSON.stringify_number n) = true.
Proof.
  unfold JSON.stringify_number.
  destruct (Z.to_int n) as [d|d]; simpl;
    destruct d; try reflexivity;
    apply (all_chars_string_of_uint (_ d)).
Qed.

Lemma to_int_not_nil (n : Z) :
  Z.to_int n <> Decimal.Pos Decimal.Nil /\ Z.to_int n <> Decimal.Neg Decimal.Nil.
Proof.
  destruct n as [|p|p]; simpl; split; try discriminate;
    intros [= H]; exact (Unsigned.to_uint_nonnil p H).
Qed.

Lemma stringify_number_inj (n m : Z) :
  JSON.stringify_number n = JSON.stringify_number m -> n = m.
Proof.
  unfold JSON.stringify_number; intros H.
  apply (f_equal NilZero.int_of_string) in H.
  rewrite !NilZero.isi in H by apply to_int_not_nil.
  injection H as H.
  apply (f_equal Z.of_int) in H; rewrite !DecimalZ.of_to in H; exact H.
Qed.

(** Two texts made of characters of one class and closed by a character
    outside the class: equal concatenations have equal parts. *)
Lemma delimited_inv (p : ascii -> bool) (s s' : string) (c c' : ascii)
    (t t' : string) :
  JSON.all_chars p s = true -> JSON.all_chars p s' = true ->
  p c = false -> p c' = false ->
  s ++ String c t = s' ++ String c' t' ->
  s = s' /\ String c t = String c' t'.
Proof.
  intros Hs Hs' Hc Hc'; revert s' Hs'.
  induction s as [|x s IH]; intros [|x' s'] Hs'; simpl in *.
  - auto.
  - intros [= -> _]; apply andb_prop in Hs'; destruct Hs'; congruence.
  - intros [= -> _]; apply andb_prop in Hs; destruct Hs; congruence.
  - apply andb_prop in Hs, Hs'; destruct Hs as [_ Hs], Hs' as [_ Hs'].
    intros [= -> Happ]; destruct (IH Hs s' Hs' Happ) as [-> Htail]; auto.
Qed.

Lemma stringify_number_delimited (n m : Z) (c : ascii) (t t' : string) :
  JSON.is_number_char c = false ->
  JSON.stringify_number n ++ String c t = JSON.stringify_number m ++ String c t' ->
  n = m /\ t = t'.
Proof.
  intros Hc H.
  destruct (delimited_inv JSON.is_number_char _ _ _ _ _ _
              (stringify_number_chars n) (stringify_number_chars m) Hc Hc H)
    as [Hnum [= Ht]].
  split; [apply stringify_number_inj; exact Hnum|exact Ht].
Qed.

Lemma stringify_IRange_self_delimiting : self_delimiting JSON.stringify_IRange.
Proof.
  intros [l c l' c'] [m d m' d'] s t H.
  unfold JSON.stringify_IRange in H; simpl in H.
  injection H as H.
  do 3 (rewrite !append_assoc in H; simpl in H;
        apply stringify_number_delimited in H; [|reflexivity];
        destruct H as [-> H]; injection H as H).
  rewrite !append_assoc in H; simpl in H.
  apply stringify_number_delimited in H; [|reflexivity].
  destruct H as [-> _]; reflexivity.
Qed.

Lemma toJSON_self_delimiting : self_delimiting Session.toJSON.
Proof.
  intros x y s t H; destruct x, y; try reflexivity;
    vm_compute in H; discriminate.
Qed.

Lemma directionValue_self_delimiting : self_delimiting Session.directionValue.
Proof.
  intros x y s t H; destruct x, y; try reflexivity; discriminate.
Qed.
End JSONFacts.

Lemma getId_stable_and_direction_sensitive_witness :
  IdentityProvider.getId Session.directionValue Session.toJSON JSON.stringify_IRange
    Session.idsOutgoing Session.callB
  = IdentityProvider.getId Session.directionValue Session.toJSON JSON.stringify_IRange
      Session.idsOutgoing Session.otherB /\
  IdentityProvider.getId Session.directionValue Session.toJSON JSON.stringify_IRange
    Session.idsOutgoing Session.callB
  <> IdentityProvider.getId Session.directionValue Session.toJSON JSON.stringify_IRange
       Session.idsIncoming Session.callB.
Proof.
  split.
  - apply (proj1 (getId_stable_and_direction_sensitive
                    Session.directionValue Session.toJSON JSON.stringify_IRange
                    Session.idsOutgoing Session.idsOutgoing
                    Session.callB Session.otherB)); reflexivity.
  - apply (proj2 (getId_stable_and_direction_sensitive
                    Session.directionValue Session.toJSON JSON.stringify_IRange
                    Session.idsOutgoing Session.idsIncoming
                    Session.callB Session.callB)); discriminate.
Defined.

Lemma getId_identifies_chain_witness :
  IdentityProvider.getId Session.directionValue Session.toJSON JSON.stringify_IRange
    Session.idsOutgoing Session.callB
  <> IdentityProvider.getId Session.directionValue Session.toJSON JSON.stringify_IRange
       Session.idsOutgoing Session.callC.
Proof.
  apply (proj2 (getId_identifies_chain
                  Session.idsOutgoing Session.idsOutgoing Session.callB Session.callC
                  directionValue_self_delimiting
                  toJSON_self_delimiting
                  stringify_IRange_self_delimiting)).
  - reflexivity.
  - discriminate.
Defined.

(* ================================================================= *)
(** * Further properties of the comparator and the sorter *)

Section ThreeWayFacts.
Context {A : Type}.
Variable cmp : A -> A -> Z.
Hypothesis Hcmp : three_way_order cmp.

Lemma three_way_refl (x : A) : cmp x x = 0.
Proof.
  apply sign_zero.
  pose proof (three_way_swap Hcmp x x) as H.
  destruct (sign (cmp x x)); simpl in H; congruence.
Qed.

(** Elements that compare equal compare alike with every third one. *)
Lemma three_way_eq_l (x y z : A) :
  sign (cmp x y) = Eq -> sign (cmp x z) = sign (cmp y z).
Proof.
  intros Hxy.
  pose proof (three_way_swap Hcmp x y) as Syx.
  pose proof (three_way_swap Hcmp x z) as Szx.
  pose proof (three_way_swap Hcmp y z) as Szy.
  rewrite Hxy in Syx; simpl in Syx.
  pose proof (three_way_trans Hcmp (o := Eq) y x z Syx) as T1.
  pose proof (three_way_trans Hcmp (o := Eq) x y z Hxy) as T2.
  pose proof (three_way_trans Hcmp (o := Lt) x z y) as T3.
  pose proof (three_way_trans Hcmp (o := Lt) y z x) as T4.
  destruct (sign (cmp x z)), (sign (cmp y z)); simpl in *;
    try reflexivity; exfalso;
    try (specialize (T1 eq_refl)); try (specialize (T2 eq_refl));
    try (specialize (T3 eq_refl Szy)); try (specialize (T4 eq_refl Szx));
    congruence.
Qed.

Lemma three_way_eq_r (x y z : A) :
  sign (cmp y z) = Eq -> sign (cmp x z) = sign (cmp x y).
Proof.
  intros Hyz.
  pose proof (three_way_swap Hcmp y z) as Szy; rewrite Hyz in Szy; simpl in Szy.
  rewrite (three_way_swap Hcmp z x), (three_way_swap Hcmp y x).
  f_equal; apply three_way_eq_l; exact Szy.
Qed.
End ThreeWayFacts.

Section SorterFacts.
Context {URI Err : Type}.
Variable toString : URI -> string.
Variable compare_strings : string -> string -> Z.
Variable compareRangesUsingStarts : IRange -> IRange -> Z.
Implicit Types a b c : Call URI Err.

Local Abbreviation uriString a := (toString (CallHierarchyItem.uri (item a))).
Local Abbreviation rangeOf a := (CallHierarchyItem.range (item a)).

(** The sign of the result, for arbitrary comparators: the sign given by
    the uri strings, and the sign given by the ranges when the former is
    zero. *)
Lemma sign_compare_lex a b :
  sign (Call.compare toString compare_strings compareRangesUsingStarts a b) =
  match sign (compare_strings (uriString a) (uriString b)) with
  | Eq => sign (compareRangesUsingStarts (rangeOf a) (rangeOf b))
  | o => o
  end.
Proof.
  unfold Call.compare.
  destruct (Z.eqb_spec (compare_strings (uriString a) (uriString b)) 0) as [Hz|Hnz].
  - rewrite Hz; reflexivity.
  - destruct (sign _) eqn:Hs; try reflexivity.
    apply sign_zero in Hs; contradiction.
Qed.

(** Whenever the two imported comparators obey the laws of a three-way
    comparator, so does [Sorter.compare], and it gives zero on a call
    compared with itself: the tree host is handed a consistent order,
    whatever the comparators look at. *)
Theorem Sorter_compare_three_way_order :
  three_way_order compare_strings ->
  three_way_order compareRangesUsingStarts ->
  three_way_order
    (Sorter.compare (URI := URI) (Err := Err)
       toString compare_strings compareRangesUsingStarts) /\
  (forall a,
     Sorter.compare toString compare_strings compareRangesUsingStarts a a = 0).
Proof.
  intros Hs Hr.
  assert (Horder : three_way_order
            (Sorter.compare (URI := URI) (Err := Err)
               toString compare_strings compareRangesUsingStarts)).
  { unfold Sorter.compare; constructor.
    - intros a b; rewrite !sign_compare_lex.
      rewrite (three_way_swap Hs (uriString a) (uriString b)).
      rewrite (three_way_swap Hr (rangeOf a) (rangeOf b)).
      destruct (sign (compare_strings _ _)); reflexivity.
    - intros o a b c; rewrite !sign_compare_lex.
      destruct (sign (compare_strings (uriString a) (uriString b))) eqn:Hab.
      + rewrite (three_way_eq_l Hs _ _ (uriString c) Hab).
        destruct (sign (compare_strings (uriString b) (uriString c)));
          [apply (three_way_trans Hr)|congruence|congruence].
      + destruct (sign (compare_strings (uriString b) (uriString c))) eqn:Hbc.
        * rewrite (three_way_eq_r Hs (uriString a) _ _ Hbc), Hab; congruence.
        * rewrite (three_way_trans Hs _ _ _ Hab Hbc); congruence.
        * congruence.
      + destruct (sign (compare_strings (uriString b) (uriString c))) eqn:Hbc.
        * rewrite (three_way_eq_r Hs (uriString a) _ _ Hbc), Hab; congruence.
        * congruence.
        * rewrite (three_way_trans Hs _ _ _ Hab Hbc); congruence. }
  split; [exact Horder|].
  intros a; apply (three_way_refl Horder).
Qed.

(** Two calls tie exactly when both comparators tie on them, and when the
    uri strings do not tie the ranges are not looked at: the result is the
    one of the string comparator. *)
Theorem compare_zero_iff a b :
  (Call.compare toString compare_strings compareRangesUsingStarts a b = 0 <->
   compare_strings (uriString a) (uriString b) = 0 /\
   compareRangesUsingStarts (rangeOf a) (rangeOf b) = 0) /\
  (compare_strings (uriString a) (uriString b) <> 0 ->
   forall (other : IRange -> IRange -> Z),
     Call.compare toString compare_strings other a b =
     Call.compare toString compare_strings compareRangesUsingStarts a b).
Proof.
  unfold Call.compare.
  destruct (Z.eqb_spec (compare_strings (uriString a) (uriString b)) 0) as [Hz|Hnz].
  - split; [tauto|contradiction].
  - split; [tauto|reflexivity].
Qed.
End SorterFacts.

Section ComparatorLaws.
(** Swap, and transitivity of the two outcomes [Eq] and [Lt], give the
    laws of a three-way comparator. *)
Lemma three_way_order_intro (A : Type) (cmp : A -> A -> Z) :
  (forall x y, sign (cmp y x) = CompOpp (sign (cmp x y))) ->
  (forall x y z, sign (cmp x y) = Eq -> sign (cmp y z) = Eq -> sign (cmp x z) = Eq) ->
  (forall x y z, sign (cmp x y) = Lt -> sign (cmp y z) = Lt -> sign (cmp x z) = Lt) ->
  three_way_order cmp.
Proof.
  intros Hswap Heq Hlt; constructor; [exact Hswap|].
  intros [| |] x y z Hxy Hyz; [eauto|eauto|].
  rewrite (Hswap z x).
  rewrite (Hswap y x) in Hxy; rewrite (Hswap z y) in Hyz.
  destruct (sign (cmp y x)) eqn:Hyx; try discriminate.
  destruct (sign (cmp z y)) eqn:Hzy; try discriminate.
  rewrite (Hlt _ _ _ Hzy Hyx); reflexivity.
Qed.

Lemma strings_compare_three_way : three_way_order strings.compare.
Proof.
  apply three_way_order_intro.
  - intros s t; rewrite !sign_strings_compare; apply String.compare_antisym.
  - intros s t u; rewrite !sign_strings_compare; intros Hst Htu.
    apply String.compare_eq_iff in Hst, Htu; subst; apply String_compare_refl.
  - intros s t u; rewrite !sign_strings_compare; apply String_compare_lt_trans.
Qed.

Lemma compareRangesUsingStarts_three_way :
  three_way_order Range.compareRangesUsingStarts.
Proof.
  apply three_way_order_intro.
  - intros r q; rewrite !sign_compareRangesUsingStarts.
    apply compareStartPositions_antisym.
  - intros r q p; rewrite !sign_compareRangesUsingStarts, !compareStartPositions_eq.
    congruence.
  - intros r q p; rewrite !sign_compareRangesUsingStarts, !compareStartPositions_lt.
    lia.
Qed.
End ComparatorLaws.

Lemma Sorter_compare_three_way_order_witness :
  three_way_order
    (Sorter.compare (URI := Session.Resource) (Err := string)
       Session.toString strings.compare Range.compareRangesUsingStarts) /\
  Sorter.compare Session.toString strings.compare Range.compareRangesUsingStarts
    Session.callB Session.callB = 0.
Proof.
  destruct (Sorter_compare_three_way_order (Err := string) Session.toString
              strings_compare_three_way compareRangesUsingStarts_three_way)
    as [Horder Hrefl].
  split; [exact Horder|apply Hrefl].
Defined.

Lemma compare_zero_iff_witness :
  Call.compare Session.toString strings.compare (fun _ _ => 7)
    Session.callA Session.callB
  = Call.compare Session.toString strings.compare Range.compareRangesUsingStarts
      Session.callA Session.callB.
Proof.
  apply (proj2 (compare_zero_iff Session.toString strings.compare
                  Range.compareRangesUsingStarts Session.callA Session.callB)).
  discriminate.
Defined.

(* ================================================================= *)
(** * Further properties of the data source *)

Section ExpansionFacts.
Context {URI Err : Type}.
Implicit Types (this : DataSource.t) (c : Call URI Err).

(** The calls that the tree host can reach for a model are the calls made
    from its roots, with no locations and no parent, and no others: since
    no expansion of a call is fulfilled, the data source never hands out a
    call that has a parent. *)
Theorem Reachable_only_roots (m : CallHierarchyModel URI Err) c :
  Reachable m c <->
  exists root, In root (roots m) /\ c = mkCall root None m None.
Proof.
  split.
  - induction 1 as [this children c Hget Hin
                   |this p children c Hp IH Hget Hin].
    + simpl in Hget; injection Hget as <-.
      apply in_map_iff in Hin; destruct Hin as [root [<- Hroot]].
      exists root; auto.
    + rewrite getChildren_of_call in Hget; discriminate.
  - intros [root [Hroot ->]].
    apply (@Reachable_root _ _ m (DataSource.mk (fun _ => CallsFrom))
             (map (fun root => mkCall root None m None) (roots m))).
    + reflexivity.
    + exact (in_map (fun root => mkCall root None m None) _ _ Hroot).
Qed.
End ExpansionFacts.

Lemma Reachable_only_roots_witness :
  Reachable Session.theModel Session.callA /\
  ~ Reachable Session.theModel Session.callB.
Proof.
  split.
  - apply (proj2 (Reachable_only_roots Session.theModel Session.callA)).
    exists Session.A; split; [left|]; reflexivity.
  - intros Hreach.
    apply (proj1 (Reachable_only_roots Session.theModel Session.callB)) in Hreach.
    destruct Hreach as [root [_ Hcall]]; discriminate.
Defined.

(* ================================================================= *)
(** * Further properties of the ids *)

Section AncestorFacts.
Context {URI Err : Type}.
Variable directionValue : CallHierarchyDirection -> string.
Variable stringifyURI : URI -> string.
Variable stringifyRange : IRange -> string.
Implicit Types (this : IdentityProvider.t) (x y a : Call URI Err).
Local Open Scope string_scope.

Local Abbreviation getId :=
  (IdentityProvider.getId directionValue stringifyURI stringifyRange).

Lemma ancestors_unfold x :
  ancestors x = match parent x with Some p => p :: ancestors p | None => [] end.
Proof. destruct x; reflexivity. Qed.

(** The id of a call ends with the id of each of its ancestors, after a
    text that starts with the direction. *)
Lemma getId_ancestor_suffix this x a :
  In a (ancestors x) ->
  exists rest,
    getId this x =
    (directionValue (IdentityProvider.getDirection this tt) ++ rest)
    ++ getId this a.
Proof.
  induction x as [i l m|i l m p IH] using Call_parent_ind;
    rewrite ancestors_unfold; simpl; [tauto|].
  intros [<-|Hin].
  - exists (stringifyURI (CallHierarchyItem.uri i)
            ++ stringifyRange (CallHierarchyItem.range i)).
    rewrite !append_assoc; reflexivity.
  - destruct (IH Hin) as [rest Hrest]; rewrite Hrest.
    exists (stringifyURI (CallHierarchyItem.uri i)
            ++ (stringifyRange (CallHierarchyItem.range i)
                ++ (directionValue (IdentityProvider.getDirection this tt)
                    ++ rest))).
    rewrite !append_assoc; reflexivity.
Qed.

(** When the direction has a non-empty run-time value, the id of a call
    is the id of any of its ancestors behind a non-empty prefix, so a call
    never shares its id with an ancestor, also where the call graph is
    cyclic and the same item comes back further down the chain. *)
Theorem getId_differs_from_ancestors this x a :
  In a (ancestors x) ->
  directionValue (IdentityProvider.getDirection this tt) <> EmptyString ->
  (exists prefix,
     prefix <> EmptyString /\ getId this x = prefix ++ getId this a) /\
  getId this x <> getId this a.
Proof.
  intros Hin Hvalue.
  destruct (getId_ancestor_suffix this x a Hin) as [rest Hrest].
  assert (Hprefix :
    directionValue (IdentityProvider.getDirection this tt) ++ rest <> EmptyString).
  { intros Hempty; apply append_is_empty in Hempty; contradiction. }
  split.
  - eexists; split; [exact Hprefix|exact Hrest].
  - intros Hid; rewrite Hid in Hrest.
    apply (f_equal String.length) in Hrest.
    rewrite length_append in Hrest.
    destruct (directionValue (IdentityProvider.getDirection this tt) ++ rest);
      [congruence|simpl in Hrest; lia].
Qed.

End AncestorFacts.

Lemma getId_differs_from_ancestors_witness :
  item Recursion.selfCall = item Session.callA /\
  IdentityProvider.getId Session.directionValue Session.toJSON JSON.stringify_IRange
    Session.idsOutgoing Recursion.selfCall
  <> IdentityProvider.getId Session.directionValue Session.toJSON JSON.stringify_IRange
       Session.idsOutgoing Session.callA.
Proof.
  split; [reflexivity|].
  apply (getId_differs_from_ancestors Session.directionValue Session.toJSON
           JSON.stringify_IRange Session.idsOutgoing
           Recursion.selfCall Session.callA).
  - left; reflexivity.
  - discriminate.
Defined.

(* ================================================================= *)
(** * The ids and the order agree *)

Section IdentityAndOrder.
Context {URI Err : Type}.
Variable directionValue : CallHierarchyDirection -> string.
Variable stringifyURI : URI -> string.
Variable stringifyRange : IRange -> string.
Variable toString : URI -> string.
Variable compare_strings : string -> string -> Z.
Variable compareRangesUsingStarts : IRange -> IRange -> Z.
Implicit Types (this other : IdentityProvider.t) (x y : Call URI Err).

(** With self-delimiting serialisations and comparators that obey the laws
    of a three-way comparator, calls that get the same id are never told
    apart by the sorter: it gives zero on them. *)
Theorem equal_ids_compare_equal this other x y :
  self_delimiting directionValue ->
  self_delimiting stringifyURI ->
  self_delimiting stringifyRange ->
  three_way_order compare_strings ->
  three_way_order compareRangesUsingStarts ->
  IdentityProvider.getId directionValue stringifyURI stringifyRange this x
  = IdentityProvider.getId directionValue stringifyURI stringifyRange other y ->
  Sorter.compare toString compare_strings compareRangesUsingStarts x y = 0.
Proof.
  intros Hdir Huri Hrange Hs Hr Hid.
  destruct (getId_inj this other x y Hdir Huri Hrange Hid) as [Hchain _].
  rewrite (chain_unfold x), (chain_unfold y) in Hchain.
  unfold identity in Hchain; injection Hchain as Hu Hrg _.
  unfold Sorter.compare, Call.compare; rewrite Hu, Hrg.
  rewrite (three_way_refl Hs); simpl.
  apply (three_way_refl Hr).
Qed.
End IdentityAndOrder.

Lemma equal_ids_compare_equal_witness :
  Sorter.compare Session.toString strings.compare Range.compareRangesUsingStarts
    Recursion.firstB Recursion.secondB = 0.
Proof.
  apply (@equal_ids_compare_equal _ _ Session.directionValue Session.toJSON
           JSON.stringify_IRange Session.toString strings.compare
           Range.compareRangesUsingStarts
           Session.idsOutgoing Session.idsOutgoing
           Recursion.firstB Recursion.secondB
           directionValue_self_delimiting toJSON_self_delimiting
           stringify_IRange_self_delimiting
           strings_compare_three_way compareRangesUsingStarts_three_way).
  reflexivity.
Defined.

(* ================================================================= *)
(** * Properties of the accessibility labels *)

Section AriaFacts.
Context {URI Err : Type}.
Implicit Types (this other : AccessibilityProvider.t) (x y : Call URI Err).

(** [getAriaLabel] never answers [null], and the label tells the direction
    and the name of the item apart from all others: two labels are equal
    exactly when they were made under the same direction for items of the
    same name. *)
Theorem getAriaLabel_injective this other x y :
  (exists label, AccessibilityProvider.getAriaLabel this x = Some label) /\
  (AccessibilityProvider.getAriaLabel this x
   = AccessibilityProvider.getAriaLabel other y <->
   AccessibilityProvider.getDirection this tt
   = AccessibilityProvider.getDirection other tt /\
   CallHierarchyItem.name (item x) = CallHierarchyItem.name (item y)).
Proof.
  unfold AccessibilityProvider.getAriaLabel.
  destruct (AccessibilityProvider.getDirection this tt),
           (AccessibilityProvider.getDirection other tt); simpl;
    (split; [eexists; reflexivity|]); split.
  all: try (intros [= Hname]; auto).
  all: try (intros [_ ->]; reflexivity).
  all: try (intros [Hd _]; discriminate).
  all: try discriminate.
Qed.
End AriaFacts.

Lemma getAriaLabel_injective_witness :
  AccessibilityProvider.getAriaLabel Recursion.labelsFrom Session.callA
  <> AccessibilityProvider.getAriaLabel Recursion.labelsTo Session.callA.
Proof.
  intros Hlabel.
  apply (proj2 (getAriaLabel_injective Recursion.labelsFrom Recursion.labelsTo
                  Session.callA Session.callA)) in Hlabel.
  destruct Hlabel as [Hdirection _]; discriminate.
Defined.
